(** * LMISerialKiller: the inventory pipeline of [src/source/index.ts]

    A shallow embedding of the serial-number reconciliation pipeline:
    the CSV loader, the paginated inventory report loop, the
    reconciliation pass over the two JavaScript [Map]s, and [main],
    followed by the properties of the specification that concern them.

    JavaScript values are modelled as the code uses them:
    - a string is its sequence of UTF-16 code units;
    - a [Map] is the list of its entries in insertion order, because
      [Map.prototype.forEach] visits entries in that order and
      [Map.prototype.set] on a present key overwrites the value in place;
    - the remote service is the sequence of answers it gives to the
      successive calls of [getInventoryReport]. *)

From Stdlib Require Import String Ascii.
From Stdlib Require Import DecimalString DecimalZ DecimalPos.
From stdpp Require Import base option numbers list.

(** ** JavaScript strings *)

Module JsString.
Local Open Scope N_scope.

(** A string value: UTF-16 code units, each below 0x10000. *)
Abbreviation t := (list N).

(** Embeds a literal of 8-bit characters, one code unit each. *)
Definition lit (s : string) : t :=
  List.map N_of_ascii (list_ascii_of_string s).

(** ECMAScript [WhiteSpace] and [LineTerminator] code points, the set
    that [String.prototype.trim] strips. All of them lie in the basic
    plane, so each is one code unit. *)
Definition isWhiteSpace (c : N) : bool :=
  (c =? 0x0009) || (c =? 0x000B) || (c =? 0x000C) || (c =? 0x0020)
  || (c =? 0x00A0) || (c =? 0xFEFF)
  || (c =? 0x1680) || ((0x2000 <=? c) && (c <=? 0x200A))
  || (c =? 0x202F) || (c =? 0x205F) || (c =? 0x3000)
  || (c =? 0x000A) || (c =? 0x000D) || (c =? 0x2028) || (c =? 0x2029).

Fixpoint trimStart (s : t) : t :=
  match s with
  | [] => []
  | c :: s' => if isWhiteSpace c then trimStart s' else s
  end.

Definition trimEnd (s : t) : t := reverse (trimStart (reverse s)).

(** [s.trim()] *)
Definition trim (s : t) : t := trimEnd (trimStart s).

(** The line feed, the separator of [data.split('\n')]. *)
Definition LF : N := 0x000A.

(** [s.split('\n')]: the pieces between line feeds; a string with [n]
    line feeds has [n + 1] pieces, the empty string has one. *)
Fixpoint split_LF (s : t) : list t :=
  match s with
  | [] => [[]]
  | c :: s' =>
      if c =? LF then [] :: split_LF s'
      else match split_LF s' with
           | piece :: pieces => (c :: piece) :: pieces
           | [] => [[c]]
           end
  end.

(** [lines.join('\n')], the inverse view used to state facts on files. *)
Fixpoint join_LF (lines : list t) : t :=
  match lines with
  | [] => []
  | [l] => l
  | l :: ls => l ++ LF :: join_LF ls
  end.

(** Truthiness of a [string | null]: null and the empty string are
    falsy. Returns the string when it is truthy. *)
Definition truthy (s : option t) : option t :=
  match s with
  | Some (c :: s') => Some (c :: s')
  | Some [] | None => None
  end.

End JsString.

(** ** JavaScript [Map] *)

Module JsMap.
Section ordered_map.
Context {K V : Type} `{EqDecision K}.

(** Entries in insertion order. *)
Definition t : Type := list (K * V).

(** [new Map()] *)
Definition empty : t := [].

(** [m.get(k)], with [undefined] as [None]. *)
Fixpoint get (m : t) (k : K) : option V :=
  match m with
  | [] => None
  | (k', v) :: m' => if decide (k = k') then Some v else get m' k
  end.

(** [m.has(k)] *)
Fixpoint has (m : t) (k : K) : bool :=
  match m with
  | [] => false
  | (k', _) :: m' => if decide (k = k') then true else has m' k
  end.

(** [m.set(k, v)]: a present key keeps its position and takes the new
    value; an absent key is appended. *)
Fixpoint set (k : K) (v : V) (m : t) : t :=
  match m with
  | [] => [(k, v)]
  | (k', v') :: m' =>
      if decide (k = k') then (k', v) :: m' else (k', v') :: set k v m'
  end.

(** The keys in the order [m.forEach] visits them. *)
Definition keys (m : t) : list K := m.*1.

End ordered_map.
Global Arguments t : clear implicits.
End JsMap.

(** ** Data model *)

Abbreviation SerialNumber := JsString.t (only parsing).
Abbreviation DeviceId := Z (only parsing).
Abbreviation ReportToken := JsString.t (only parsing).

(** One row of a report page: [{ hostId: number; serviceTag: string }]. *)
Record HostRow := { hostId : DeviceId; serviceTag : SerialNumber }.

(** What [getInventoryReport] resolves to.

    The declared type is [InventoryResponse | null]; the value is the
    unvalidated body of the HTTP answer, and the loop of [main] tests it
    with [report && typeof report === 'object'], so the cases that guard
    distinguishes are kept apart:
    - [FetchNull]: the request failed, the [catch] branch returned [null];
    - [FetchNotObject]: a body that is falsy or not an object;
    - [FetchObject hosts token]: an object; [hosts] is the [hosts] record
      as the list of its (row key, row) properties in [Object.keys] order,
      [None] when the object has no such property (which
      [InventoryResponse] rules out), and [token] is [report.token]. *)
Inductive Fetched :=
| FetchNull
| FetchNotObject
| FetchObject (hosts : option (list (JsString.t * HostRow)))
              (token : option ReportToken).

(** The three output files, each with the rows written after its header. *)
Inductive File :=
| InventoryObtenido_csv (rows : list (SerialNumber * DeviceId))
| Inventory_csv (rows : list (DeviceId * SerialNumber))
| InventoryNotFound_csv (rows : list SerialNumber).

(** ** Input loader *)

(** [readFileAndParseToArray]. The argument is what
    [fs.readFileSync(filePath, 'utf8')] yields: the decoded contents, or
    [None] when it throws, in which case the [catch] returns [[]]. *)
Definition readFileAndParseToArray (data : option JsString.t)
  : list SerialNumber :=
  match data with
  | Some data => List.map JsString.trim (JsString.split_LF data)
  | None => []
  end.

(** ** Pagination loop *)

(** The body of [Object.keys(report.hosts).forEach(...)]:
    [inventoryMap.set(host.serviceTag, host.hostId)] for every row. *)
Definition absorb (inventoryMap : JsMap.t SerialNumber DeviceId)
    (hosts : list (JsString.t * HostRow))
  : JsMap.t SerialNumber DeviceId :=
  fold_left (fun m kv => JsMap.set (serviceTag kv.2) (hostId kv.2) m)
    hosts inventoryMap.

(** How the [while (nextToken)] loop of [main] ends. *)
Inductive Paginated :=
| Exhausted (inventoryMap : JsMap.t SerialNumber DeviceId)
            (fetches : list ReportToken) (unread : list Fetched)
    (** the loop exited: the map, the tokens passed to
        [getInventoryReport] in call order, the answers never asked for *)
| Threw (fetches : list ReportToken)
    (** [Object.keys(undefined)] raised a [TypeError] *)
| Awaiting (fetches : list ReportToken)
    (** the loop is still asking after the last scripted answer *).

(** The loop, lines 111-122. [answers] are the results of the successive
    [getInventoryReport] calls; [fetches] logs the token of each call. *)
Fixpoint paginate (answers : list Fetched) (nextToken : option ReportToken)
    (inventoryMap : JsMap.t SerialNumber DeviceId)
    (fetches : list ReportToken) : Paginated :=
  match JsString.truthy nextToken with
  | None => Exhausted inventoryMap fetches answers
  | Some token =>
      match answers with
      | [] => Awaiting fetches
      | report :: answers' =>
          match report with
          | FetchObject (Some hosts) token' =>
              paginate answers' token' (absorb inventoryMap hosts)
                (fetches ++ [token])
          | FetchObject None _ => Threw (fetches ++ [token])
          | FetchNull | FetchNotObject =>
              paginate answers' None inventoryMap (fetches ++ [token])
          end
      end
  end.

(** ** Reconciliation pass *)

(** The two accumulators of lines 139-140. *)
Record Reconciled := {
  inventoryMapFiltered : JsMap.t DeviceId SerialNumber;
  inventoryNotFound : list SerialNumber
}.

(** The callback of [serials.forEach], lines 141-150. The key of the
    [set] is [inventoryMap.get(serial) as number]; under a successful
    [has] the [get] finds an id ([jsmap_has_get]), so its [None] case is
    never taken. *)
Definition visit (inventoryMap : JsMap.t SerialNumber DeviceId)
    (acc : Reconciled) (serial : SerialNumber) : Reconciled :=
  if JsMap.has inventoryMap serial then
    match JsMap.get inventoryMap serial with
    | Some id =>
        {| inventoryMapFiltered :=
             JsMap.set id serial (inventoryMapFiltered acc);
           inventoryNotFound := inventoryNotFound acc |}
    | None => acc
    end
  else
    {| inventoryMapFiltered := inventoryMapFiltered acc;
       inventoryNotFound := inventoryNotFound acc ++ [serial] |}.

Definition reconcile (serials : list SerialNumber)
    (inventoryMap : JsMap.t SerialNumber DeviceId) : Reconciled :=
  fold_left (visit inventoryMap) serials
    {| inventoryMapFiltered := JsMap.empty; inventoryNotFound := [] |}.

(** The matched dataset and the unmatched one, as the sink writes them. *)
Definition matched (r : Reconciled) : list (DeviceId * SerialNumber) :=
  inventoryMapFiltered r.
Definition unmatched (r : Reconciled) : list SerialNumber :=
  inventoryNotFound r.

(** The variables a reconciliation pass reads and writes, for runs that
    follow one another on the same inputs. *)
Record Heap := {
  h_serials : list SerialNumber;
  h_inventoryMap : JsMap.t SerialNumber DeviceId;
  h_result : Reconciled
}.

(** One pass: fresh accumulators (the [new Map()] and the [[]]), then the
    [forEach]; the inputs are only read. *)
Definition reconcile_pass (h : Heap) : Heap :=
  {| h_serials := h_serials h;
     h_inventoryMap := h_inventoryMap h;
     h_result := reconcile (h_serials h) (h_inventoryMap h) |}.

(** ** The pipeline *)

(** What [main] meets outside the program. The answer of [getHosts] only
    fills the body of the report request and is not modelled. *)
Record World := {
  csv : option JsString.t;          (** contents of the CSV, if readable *)
  requested : option ReportToken;   (** result of [requestInventoryReport] *)
  reports : list Fetched            (** results of [getInventoryReport] *)
}.

Inductive Ending :=
| NoToken     (** the [return] of line 105 *)
| Caught      (** the [catch] of line 171 *)
| Pending     (** still paginating *)
| Finished.   (** ran to the end of the [try] block *)

Record Run := {
  ending : Ending;
  fetched : list ReportToken;   (** tokens given to [getInventoryReport] *)
  written : list File           (** files created, in order *)
}.

Definition main (w : World) : Run :=
  let serials := readFileAndParseToArray (csv w) in
  match JsString.truthy (requested w) with
  | None => {| ending := NoToken; fetched := []; written := [] |}
  | Some token =>
      match paginate (reports w) (Some token) JsMap.empty [] with
      | Awaiting fetches =>
          {| ending := Pending; fetched := fetches; written := [] |}
      | Threw fetches =>
          {| ending := Caught; fetched := fetches; written := [] |}
      | Exhausted inventoryMap fetches _ =>
          let r := reconcile serials inventoryMap in
          {| ending := Finished;
             fetched := fetches;
             written := [ InventoryObtenido_csv inventoryMap;
                          Inventory_csv (inventoryMapFiltered r);
                          InventoryNotFound_csv (inventoryNotFound r) ] |}
      end
  end.

(** ** Result sink *)

(** The separator of the fields of a row, and the carriage return. *)
Definition COMMA : N := 0x002C.
Definition CR : N := 0x000D.

(** [`${n}`] for a number [n]: the decimal digits, after a minus sign
    when [n] is negative. This is how a template literal prints an
    integer of magnitude below 10^21, hence every id that a JSON answer
    carries exactly. *)
Definition numberToString (n : Z) : JsString.t :=
  JsString.lit (NilZero.string_of_int (Z.to_int n)).

(** The text of the [write] call made for one entry, less its final
    line feed: lines 130, 157 and 166. *)
Definition line_InventoryObtenido (e : SerialNumber * DeviceId)
  : JsString.t :=
  e.1 ++ COMMA :: numberToString e.2.

Definition line_Inventory (e : DeviceId * SerialNumber) : JsString.t :=
  numberToString e.1 ++ COMMA :: e.2.

(** Header and rows as the stream receives them, each followed by a
    line feed. *)
Definition csvText (header : JsString.t) (lines : list JsString.t)
  : JsString.t :=
  header ++ JsString.LF :: concat ((fun l => l ++ [JsString.LF]) <$> lines).

(** The contents of a file once its stream is ended: what the [write]
    calls of lines 127-132, 154-159 and 163-168 sent, in order. *)
Definition fileText (f : File) : JsString.t :=
  match f with
  | InventoryObtenido_csv rows =>
      csvText (JsString.lit "serviceTag,hostId")
        (line_InventoryObtenido <$> rows)
  | Inventory_csv rows =>
      csvText (JsString.lit "id,serviceTag") (line_Inventory <$> rows)
  | InventoryNotFound_csv rows =>
      csvText (JsString.lit "serviceTag") rows
  end.

(** ** Notions used to state the properties *)

(** The tokens the loop has called [getInventoryReport] with. *)
Definition calls_of (p : Paginated) : list ReportToken :=
  match p with
  | Exhausted _ fetches _ | Threw fetches | Awaiting fetches => fetches
  end.

(** The elements of a list in order of first appearance. *)
Fixpoint nub {A} `{EqDecision A} (l : list A) : list A :=
  match l with
  | [] => []
  | x :: l' => x :: filter (fun y => y ≠ x) (nub l')
  end.

(** Setting a list of entries one after the other. *)
Definition fill {K V} `{EqDecision K} (entries : list (K * V))
    (m : JsMap.t K V) : JsMap.t K V :=
  fold_left (fun m kv => JsMap.set kv.1 kv.2 m) entries m.

(** The rows a report page carries. *)
Definition rows_of (report : Fetched) : list HostRow :=
  match report with
  | FetchObject (Some hosts) _ => hosts.*2
  | _ => []
  end.

(** The input serials the inventory knows, each with the id it resolves
    to, in input order. *)
Definition found (inventoryMap : JsMap.t SerialNumber DeviceId)
    (serials : list SerialNumber) : list (DeviceId * SerialNumber) :=
  omap (fun s => (fun id => (id, s)) <$> JsMap.get inventoryMap s) serials.

(** A string with no white space at either end, which is what
    "trimmed of surrounding whitespace" asks of an input serial. *)
Definition trimmed (s : JsString.t) : Prop :=
  (∀ c, head s = Some c → JsString.isWhiteSpace c = false)
  ∧ (∀ c, last s = Some c → JsString.isWhiteSpace c = false).

(** A string made of white space only. *)
Definition blank (s : JsString.t) : Prop :=
  Forall (fun c => JsString.isWhiteSpace c = true) s.

(** The map entry a report row sets. *)
Definition entry_of (row : HostRow) : SerialNumber * DeviceId :=
  (serviceTag row, hostId row).

(** A page after which the loop goes on: an object with its rows and a
    next token, which the loop follows when it is a non-empty string. *)
Record Page := {
  page_hosts : list (JsString.t * HostRow);
  page_next : ReportToken
}.

Definition served (p : Page) : Fetched :=
  FetchObject (Some (page_hosts p)) (Some (page_next p)).

(** The tokens asked for to get a chain of pages, starting from [token]:
    each page is asked for with the token its predecessor produced. *)
Fixpoint requests (token : ReportToken) (pages : list Page)
  : list ReportToken :=
  match pages with
  | [] => []
  | p :: pages' => token :: requests (page_next p) pages'
  end.

(** The token in hand once the chain has been read. *)
Fixpoint handed (token : ReportToken) (pages : list Page) : ReportToken :=
  match pages with
  | [] => token
  | p :: pages' => handed (page_next p) pages'
  end.

(** The inventory map after the rows of a chain of pages. *)
Definition absorb_pages (inventoryMap : JsMap.t SerialNumber DeviceId)
    (pages : list Page) : JsMap.t SerialNumber DeviceId :=
  fold_left (fun m p => absorb m (page_hosts p)) pages inventoryMap.


(** A file with Windows line endings: a carriage return before every
    line feed. *)
Fixpoint to_CRLF (data : JsString.t) : JsString.t :=
  match data with
  | [] => []
  | c :: data' =>
      if (c =? JsString.LF)%N then CR :: c :: to_CRLF data'
      else c :: to_CRLF data'
  end.

(** * Properties *)

(** ** The ordered map *)

Section jsmap_facts.
Context {K V : Type} `{EqDecision K}.
Implicit Types (m : JsMap.t K V) (k : K) (v : V).

Lemma jsmap_has_get m k : JsMap.has m k = true ↔ is_Some (JsMap.get m k).
Proof.
  induction m as [|[k' v'] m IH]; simpl.
  - split; [done | by intros [? ?]].
  - destruct (decide (k = k')); [by split; eauto | done].
Qed.

Lemma jsmap_get_None m k : JsMap.get m k = None ↔ k ∉ JsMap.keys m.
Proof.
  unfold JsMap.keys. induction m as [|[k' v'] m IH]; simpl.
  - split; [intros _; apply not_elem_of_nil | done].
  - rewrite not_elem_of_cons. destruct (decide (k = k')); [|tauto].
    split; [done | tauto].
Qed.

Lemma jsmap_get_Some_key m k v : JsMap.get m k = Some v → k ∈ JsMap.keys m.
Proof.
  intros Hget. destruct (decide (k ∈ JsMap.keys m)) as [|Hn]; [done|].
  apply jsmap_get_None in Hn. congruence.
Qed.

Lemma jsmap_get_set m k v k' :
  JsMap.get (JsMap.set k v m) k'
  = if decide (k' = k) then Some v else JsMap.get m k'.
Proof.
  induction m as [|[k0 v0] m IH]; simpl.
  - by destruct (decide (k' = k)).
  - destruct (decide (k = k0)) as [->|Hne]; simpl.
    + by destruct (decide (k' = k0)).
    + rewrite IH. destruct (decide (k' = k0)) as [->|]; [|done].
      rewrite decide_False; [done | congruence].
Qed.

Lemma jsmap_keys_set m k v :
  JsMap.keys (JsMap.set k v m)
  = if decide (k ∈ JsMap.keys m) then JsMap.keys m else JsMap.keys m ++ [k].
Proof.
  unfold JsMap.keys. induction m as [|[k0 v0] m IH].
  - by simpl.
  - cbn [JsMap.set]. destruct (decide (k = k0)) as [->|Hne].
    + rewrite decide_True; [done | rewrite fmap_cons; left].
    + rewrite !fmap_cons, IH. cbn [fst].
      destruct (decide (k ∈ m.*1)) as [Hin|Hin].
      * rewrite decide_True; [done | by right].
      * rewrite decide_False; [done|]. rewrite not_elem_of_cons. tauto.
Qed.

Lemma jsmap_NoDup_set m k v :
  NoDup (JsMap.keys m) → NoDup (JsMap.keys (JsMap.set k v m)).
Proof.
  intros Hm. rewrite jsmap_keys_set. case_decide; [done|].
  apply NoDup_app. split_and!; [done | | apply NoDup_singleton].
  intros x Hx Hk. apply list_elem_of_singleton in Hk. by subst.
Qed.

(** Setting a present key rewrites its entry where it stands. *)
Lemma jsmap_set_present m k v i v0 :
  NoDup (JsMap.keys m) → m !! i = Some (k, v0) →
  JsMap.set k v m = <[i := (k, v)]> m.
Proof.
  unfold JsMap.keys. revert i.
  induction m as [|[k1 v1] m IH]; intros i Hnd Hi; [done|].
  simpl in Hnd. apply NoDup_cons in Hnd as [Hk1 Hnd].
  destruct i as [|i]; simpl in *.
  - injection Hi as -> ->. by rewrite decide_True.
  - destruct (decide (k = k1)) as [->|Hne].
    + exfalso. apply Hk1. apply list_elem_of_fmap.
      exists (k1, v0). split; [done|]. by eapply list_elem_of_lookup_2.
    + f_equal. by apply IH.
Qed.

Lemma jsmap_elem_of m k v :
  NoDup (JsMap.keys m) → (k, v) ∈ m ↔ JsMap.get m k = Some v.
Proof.
  unfold JsMap.keys. induction m as [|[k1 v1] m IH]; simpl; intros Hnd.
  - split; [by intros ?%elem_of_nil | done].
  - apply NoDup_cons in Hnd as [Hk1 Hnd]. rewrite elem_of_cons.
    destruct (decide (k = k1)) as [->|Hne].
    + split; [|intros [= ->]; by left].
      intros [[= ->]|Hin]; [done|]. exfalso. apply Hk1.
      apply list_elem_of_fmap. by exists (k1, v).
    + rewrite <- (IH Hnd). split; [|tauto].
      intros [[= -> _]|?]; [done | tauto].
Qed.

End jsmap_facts.

(** ** Order of first appearance *)

Section nub_facts.
Context {A : Type} `{EqDecision A}.
Implicit Types (l : list A) (x : A).

Lemma filter_all (P : A → Prop) `{!∀ x, Decision (P x)} l :
  Forall P l → filter P l = l.
Proof.
  induction 1 as [|y l Hy _ IH]; [done|].
  by rewrite filter_cons_True, IH.
Qed.

Lemma elem_of_nub l x : x ∈ nub l ↔ x ∈ l.
Proof.
  induction l as [|y l IH]; [done|]. simpl.
  rewrite !elem_of_cons, list_elem_of_filter, IH.
  destruct (decide (x = y)); tauto.
Qed.

Lemma NoDup_nub l : NoDup (nub l).
Proof.
  induction l as [|y l IH]; simpl; [constructor|].
  apply NoDup_cons. split; [|by apply NoDup_filter].
  rewrite list_elem_of_filter. tauto.
Qed.

Lemma length_nub l : length (nub l) ≤ length l.
Proof.
  induction l as [|y l IH]; simpl; [done|].
  pose proof (length_filter (fun z => z ≠ y) (nub l)). lia.
Qed.

Lemma nub_NoDup l : NoDup l → nub l = l.
Proof.
  induction 1 as [|y l Hy _ IH]; simpl; [done|]. rewrite IH. f_equal.
  apply filter_all, Forall_forall. intros z Hz ->. done.
Qed.

Lemma length_nub_NoDup l : length (nub l) = length l ↔ NoDup l.
Proof.
  split; [|by intros ->%nub_NoDup].
  induction l as [|y l IH]; simpl; [constructor|]. intros Hlen.
  pose proof (length_filter (fun z => z ≠ y) (nub l)) as Hf.
  pose proof (length_nub l) as Hn.
  apply NoDup_cons. split; [|apply IH; lia].
  intros Hy%elem_of_nub.
  pose proof (length_filter_lt (fun z => z ≠ y) (nub l) y Hy) as Hlt.
  assert (¬ y ≠ y) as Hyy by tauto. specialize (Hlt Hyy). lia.
Qed.

End nub_facts.

(** ** Filling a map entry by entry *)

Section fill_facts.
Context {K V : Type} `{EqDecision K}.
Implicit Types (m : JsMap.t K V) (es : list (K * V)) (k : K).

Lemma fill_snoc es e m : fill (es ++ [e]) m = JsMap.set e.1 e.2 (fill es m).
Proof. unfold fill. by rewrite fold_left_app. Qed.

(** The value under a key is the one of the last entry set for it. *)
Lemma fill_get es m k :
  JsMap.get (fill es m) k
  = match last (filter (fun e => e.1 = k) es) with
    | Some e => Some e.2
    | None => JsMap.get m k
    end.
Proof.
  induction es as [|e es IH] using rev_ind; [done|].
  rewrite fill_snoc, jsmap_get_set, filter_app, filter_cons, filter_nil.
  destruct (decide (k = e.1)) as [->|Hne].
  - rewrite decide_True by done. by rewrite last_snoc.
  - rewrite decide_False by congruence. by rewrite app_nil_r.
Qed.

(** The keys stand in the order in which they were first set. *)
Lemma fill_keys es m :
  JsMap.keys (fill es m)
  = JsMap.keys m ++ filter (fun k => k ∉ JsMap.keys m) (nub es.*1).
Proof.
  revert m. induction es as [|[k v] es IH]; intros m.
  - simpl. by rewrite filter_nil, app_nil_r.
  - change (fill ((k, v) :: es) m) with (fill es (JsMap.set k v m)).
    rewrite IH, jsmap_keys_set. rewrite fmap_cons. cbn [nub fst].
    rewrite filter_cons. destruct (decide (k ∈ JsMap.keys m)) as [Hin|Hin].
    + destruct (decide (k ∉ JsMap.keys m)) as [Hn|_]; [by destruct Hn|].
      f_equal. rewrite list_filter_filter. apply list_filter_iff.
      intros x. split; [|by intros [? _]]. intros Hx. split; [done|].
      by intros ->.
    + destruct (decide (k ∉ JsMap.keys m)) as [_|Hn]; [|by destruct Hn].
      rewrite <- app_assoc. simpl. do 2 f_equal.
      rewrite list_filter_filter. apply list_filter_iff.
      intros x. rewrite not_elem_of_app, list_elem_of_singleton. tauto.
Qed.

Lemma fill_NoDup es m :
  NoDup (JsMap.keys m) → NoDup (JsMap.keys (fill es m)).
Proof.
  intros Hm. induction es as [|e es IH] using rev_ind; [done|].
  rewrite fill_snoc. by apply jsmap_NoDup_set.
Qed.

End fill_facts.

(** ** The reconciliation pass *)

Section reconcile_facts.
Implicit Types (inv : JsMap.t SerialNumber DeviceId).
Implicit Types (serials : list SerialNumber) (acc : Reconciled).

Lemma found_snoc inv serials s :
  found inv (serials ++ [s])
  = found inv serials
    ++ match JsMap.get inv s with Some id => [(id, s)] | None => [] end.
Proof.
  unfold found. rewrite omap_app. f_equal. simpl.
  by destruct (JsMap.get inv s).
Qed.

(** The two branches of the callback, by what [get] finds. *)
Lemma visit_get inv acc s :
  visit inv acc s
  = match JsMap.get inv s with
    | Some id =>
        {| inventoryMapFiltered := JsMap.set id s (inventoryMapFiltered acc);
           inventoryNotFound := inventoryNotFound acc |}
    | None =>
        {| inventoryMapFiltered := inventoryMapFiltered acc;
           inventoryNotFound := inventoryNotFound acc ++ [s] |}
    end.
Proof.
  unfold visit. pose proof (jsmap_has_get inv s) as Hhas.
  destruct (JsMap.has inv s), (JsMap.get inv s) as [id|]; try done.
  - destruct (proj1 Hhas eq_refl) as [? ?]. done.
  - assert (false = true) by (apply Hhas; eauto). done.
Qed.

(** The pass from any accumulators: the found serials fill the map, the
    others are appended, each in input order. *)
Lemma visit_fold inv serials acc :
  fold_left (visit inv) serials acc
  = {| inventoryMapFiltered :=
         fill (found inv serials) (inventoryMapFiltered acc);
       inventoryNotFound :=
         inventoryNotFound acc
         ++ filter (fun s => JsMap.get inv s = None) serials |}.
Proof.
  revert acc. induction serials as [|s serials IH]; intros acc.
  - simpl. rewrite filter_nil, app_nil_r. by destruct acc.
  - cbn [fold_left]. rewrite IH, visit_get. unfold found.
    rewrite filter_cons.
    cbn [omap list_omap].
    destruct (JsMap.get inv s) as [id|] eqn:Hs; simpl.
    + done.
    + by rewrite <- app_assoc.
Qed.

Lemma matched_reconcile inv serials :
  matched (reconcile serials inv) = fill (found inv serials) JsMap.empty.
Proof. unfold reconcile. by rewrite visit_fold. Qed.

Lemma unmatched_reconcile inv serials :
  unmatched (reconcile serials inv)
  = filter (fun s => JsMap.get inv s = None) serials.
Proof. unfold reconcile. by rewrite visit_fold. Qed.

Lemma reconcile_snoc inv serials s :
  reconcile (serials ++ [s]) inv = visit inv (reconcile serials inv) s.
Proof. unfold reconcile. by rewrite fold_left_app. Qed.

Lemma NoDup_matched inv serials :
  NoDup (JsMap.keys (matched (reconcile serials inv))).
Proof. rewrite matched_reconcile. apply fill_NoDup. constructor. Qed.

Lemma keys_matched inv serials :
  JsMap.keys (matched (reconcile serials inv)) = nub (found inv serials).*1.
Proof.
  rewrite matched_reconcile, fill_keys. simpl.
  apply filter_all, Forall_forall. intros id _. apply not_elem_of_nil.
Qed.

(** Every input serial is counted once, as found or as absent. *)
Lemma length_found inv serials :
  length (found inv serials)
  + length (filter (fun s => JsMap.get inv s = None) serials)
  = length serials.
Proof.
  unfold found. induction serials as [|s serials IH]; [done|].
  rewrite filter_cons. cbn [omap list_omap].
  destruct (JsMap.get inv s); simpl in *; lia.
Qed.

End reconcile_facts.

(** C1, as the code has it. Each input serial is visited on its own, in
    turn; the unmatched dataset holds every serial the inventory lacks,
    duplicates included; the matched dataset holds one entry per distinct
    DeviceId among the found serials. So matched and unmatched together
    never outnumber the input, and they add up to its length exactly when
    no two found occurrences resolve to the same DeviceId. *)
Theorem reconcile_partition_sizes
    (serials : list SerialNumber) (inv : JsMap.t SerialNumber DeviceId) :
  let r := reconcile serials inv in
  (∀ s, reconcile (serials ++ [s]) inv = visit inv r s)
  ∧ unmatched r = filter (fun s => JsMap.get inv s = None) serials
  ∧ length (matched r) = length (nub (found inv serials).*1)
  ∧ length (matched r) + length (unmatched r) ≤ length serials
  ∧ (length (matched r) + length (unmatched r) = length serials
     ↔ NoDup (found inv serials).*1).
Proof.
  intros r. subst r.
  pose proof (keys_matched inv serials) as Hk.
  apply (f_equal length) in Hk. unfold JsMap.keys in Hk.
  rewrite length_fmap in Hk.
  pose proof (length_found inv serials) as Hlen.
  pose proof (length_nub (found inv serials).*1) as Hle.
  pose proof (length_nub_NoDup (found inv serials).*1) as Hnd.
  rewrite length_fmap in Hle, Hnd.
  rewrite unmatched_reconcile.
  split_and!; [intros s; apply reconcile_snoc | done | done | lia |].
  rewrite <- Hnd. lia.
Qed.

(** C1 as stated fails on a duplicated serial that is found: it appears
    once in matched, and the two datasets hold fewer entries than the
    input. *)
Lemma reconcile_duplicate_collapses :
  let X := JsString.lit "X" in
  let r := reconcile [X; X] [(X, 1%Z)] in
  matched r = [(1%Z, X)]
  ∧ unmatched r = []
  ∧ length (matched r) + length (unmatched r) ≠ length [X; X].
Proof. vm_compute. split_and!; [done | done | lia]. Qed.

(** C8. The matched dataset has at most one entry per DeviceId; and when
    an input serial resolves to a DeviceId that an earlier occurrence
    (the same serial, or another one of the same device) already entered,
    its serial replaces the value of that entry, which stays where it
    is. *)
Theorem matched_keyed_by_device
    (serials : list SerialNumber) (inv : JsMap.t SerialNumber DeviceId) :
  NoDup (JsMap.keys (matched (reconcile serials inv)))
  ∧ ∀ s id i s0,
      JsMap.get inv s = Some id →
      matched (reconcile serials inv) !! i = Some (id, s0) →
      matched (reconcile (serials ++ [s]) inv)
      = <[i := (id, s)]> (matched (reconcile serials inv)).
Proof.
  split; [apply NoDup_matched|]. intros s id i s0 Hs Hi.
  rewrite reconcile_snoc, visit_get, Hs. unfold matched at 1.
  cbn [inventoryMapFiltered].
  eapply jsmap_set_present; [apply NoDup_matched | exact Hi].
Qed.

Lemma matched_keyed_by_device_witness :
  let A := JsString.lit "A" in
  let B := JsString.lit "B" in
  let C := JsString.lit "C" in
  let inv := [(A, 1%Z); (C, 2%Z); (B, 1%Z)] in
  matched (reconcile [A; C] inv) = [(1%Z, A); (2%Z, C)]
  ∧ matched (reconcile ([A; C] ++ [B]) inv) = [(1%Z, B); (2%Z, C)].
Proof.
  intros A B C inv. split; [reflexivity|].
  rewrite (proj2 (matched_keyed_by_device [A; C] inv) B 1%Z 0%nat A);
    reflexivity.
Defined.

(** C10. A reconciliation pass reads its inputs and leaves them as they
    were, and starts from fresh accumulators; so a second pass over the
    same serials and inventory map yields the same matched and unmatched
    sequences as the first. *)
Theorem reconcile_pass_idempotent (h : Heap) :
  let h1 := reconcile_pass h in
  let h2 := reconcile_pass h1 in
  h_serials h1 = h_serials h
  ∧ h_inventoryMap h1 = h_inventoryMap h
  ∧ matched (h_result h2) = matched (h_result h1)
  ∧ unmatched (h_result h2) = unmatched (h_result h1)
  ∧ h2 = h1.
Proof. by destruct h. Qed.

(** ** Entries and first appearances *)

Section order_facts.
Context {K V : Type} `{EqDecision K} `{EqDecision V}.
Implicit Types (m : JsMap.t K V) (es : list (K * V)).

Lemma jsmap_set_fresh m k v :
  k ∉ JsMap.keys m → JsMap.set k v m = m ++ [(k, v)].
Proof.
  unfold JsMap.keys. induction m as [|[k1 v1] m IH]; [done|].
  rewrite fmap_cons, not_elem_of_cons. intros [Hne Hk]. simpl.
  rewrite decide_False by done. by rewrite IH.
Qed.

Lemma jsmap_set_same m k v :
  NoDup (JsMap.keys m) → (k, v) ∈ m → JsMap.set k v m = m.
Proof.
  intros Hnd (i & Hi)%list_elem_of_lookup_1.
  rewrite (jsmap_set_present m k v i v Hnd Hi). by apply list_insert_id.
Qed.

Lemma nub_snoc {A} `{EqDecision A} (l : list A) x :
  nub (l ++ [x]) = if decide (x ∈ l) then nub l else nub l ++ [x].
Proof.
  induction l as [|y l IH].
  - by simpl.
  - cbn [app nub]. rewrite IH. destruct (decide (x ∈ l)) as [Hin|Hin].
    + rewrite decide_True; [done | by right].
    + rewrite filter_app, filter_cons, filter_nil.
      destruct (decide (x = y)) as [->|Hne].
      * rewrite decide_False by auto. rewrite decide_True by left.
        by rewrite app_nil_r.
      * rewrite decide_True by done. rewrite decide_False; [done|].
        rewrite not_elem_of_cons. tauto.
Qed.

(** When a key always comes with the same value, filling an empty map
    keeps the entries in order of first appearance. *)
Lemma fill_nub es :
  (∀ e e', e ∈ es → e' ∈ es → e.1 = e'.1 → e = e') →
  fill es JsMap.empty = nub es.
Proof.
  induction es as [|e es IH] using rev_ind; [done|]. intros Hfun.
  assert (fill es JsMap.empty = nub es) as Hes.
  { apply IH. intros e1 e2 H1 H2. apply Hfun; apply elem_of_app; by left. }
  assert (NoDup (JsMap.keys (nub es))) as Hnd.
  { rewrite <- Hes. apply fill_NoDup. constructor. }
  rewrite fill_snoc, Hes, nub_snoc. destruct e as [k v]. cbn [fst snd].
  destruct (decide ((k, v) ∈ es)) as [Hin|Hin].
  - apply jsmap_set_same; [done|]. by apply elem_of_nub.
  - apply jsmap_set_fresh. unfold JsMap.keys.
    intros (e' & He' & Hin')%list_elem_of_fmap. rewrite elem_of_nub in Hin'.
    apply Hin. assert ((k, v) = e') as ->; [|done].
    apply Hfun; [| |done].
    + apply elem_of_app. right. by left.
    + apply elem_of_app. by left.
Qed.

Lemma nub_fmap {A B} `{EqDecision A} `{EqDecision B} (f : A → B) l :
  (∀ x y, x ∈ l → y ∈ l → f x = f y → x = y) →
  nub (f <$> l) = f <$> nub l.
Proof.
  induction l as [|x l IH] using rev_ind; [done|]. intros Hinj.
  assert (nub (f <$> l) = f <$> nub l) as Hl.
  { apply IH. intros y z Hy Hz. apply Hinj; apply elem_of_app; by left. }
  rewrite fmap_app. cbn [fmap list_fmap]. rewrite !nub_snoc, Hl.
  destruct (decide (x ∈ l)) as [Hin|Hin].
  - rewrite decide_True; [done | by apply list_elem_of_fmap_2].
  - rewrite decide_False; [by rewrite fmap_app|].
    intros (y & Hxy & Hy)%list_elem_of_fmap. apply Hin.
    assert (x = y) as ->; [|done].
    apply Hinj; [| |done].
    + apply elem_of_app. right. by left.
    + apply elem_of_app. by left.
Qed.

End order_facts.

Section found_facts.
Implicit Types (inv : JsMap.t SerialNumber DeviceId).
Implicit Types (serials : list SerialNumber).

Lemma elem_of_found inv serials id s :
  (id, s) ∈ found inv serials ↔ s ∈ serials ∧ JsMap.get inv s = Some id.
Proof.
  unfold found. rewrite list_elem_of_omap. split.
  - intros (s' & Hin & Hs'). destruct (JsMap.get inv s') eqn:Hget; [|done].
    simpl in Hs'. by simplify_eq.
  - intros [Hin Hget]. exists s. by rewrite Hget.
Qed.

Lemma found_serials inv serials :
  (found inv serials).*2
  = filter (fun s => is_Some (JsMap.get inv s)) serials.
Proof.
  unfold found. induction serials as [|s serials IH]; [done|].
  rewrite filter_cons. cbn [omap list_omap].
  destruct (JsMap.get inv s) as [id|]; simpl; [by rewrite <- IH | done].
Qed.

(** An entry of matched pairs a DeviceId with the last input serial
    that resolved to it. *)
Lemma elem_of_matched inv serials id s :
  (id, s) ∈ matched (reconcile serials inv)
  ↔ last (filter (fun e => e.1 = id) (found inv serials)) = Some (id, s).
Proof.
  rewrite jsmap_elem_of by apply NoDup_matched.
  rewrite matched_reconcile, fill_get.
  destruct (last _) as [[id' s']|] eqn:Hlast; [|done].
  apply last_Some_elem_of, list_elem_of_filter in Hlast as [Hid _].
  simpl in *. subst id'. split; congruence.
Qed.

End found_facts.

(** C4, as the code has it. The unmatched dataset lists the absent
    serials in input order. The matched dataset lists the DeviceIds in
    the order in which the found input serials first reach them, each
    with the last input serial that resolved to it. When no two distinct
    found input serials share a DeviceId, matched therefore lists the
    found serials in order of first appearance. *)
Theorem reconcile_order
    (serials : list SerialNumber) (inv : JsMap.t SerialNumber DeviceId) :
  let r := reconcile serials inv in
  unmatched r = filter (fun s => JsMap.get inv s = None) serials
  ∧ JsMap.keys (matched r) = nub (found inv serials).*1
  ∧ (∀ id s,
       (id, s) ∈ matched r
       ↔ last (filter (fun e => e.1 = id) (found inv serials))
         = Some (id, s))
  ∧ ((∀ s1 s2 id, s1 ∈ serials → s2 ∈ serials →
        JsMap.get inv s1 = Some id → JsMap.get inv s2 = Some id → s1 = s2) →
     (matched r).*2
     = nub (filter (fun s => is_Some (JsMap.get inv s)) serials)).
Proof.
  intros r. subst r.
  split_and!; [apply unmatched_reconcile | apply keys_matched | |].
  - apply elem_of_matched.
  - intros Hinj. rewrite matched_reconcile, fill_nub.
    + rewrite <- found_serials. symmetry. apply nub_fmap.
      intros [id1 s1] [id2 s2] [_ H1]%elem_of_found [_ H2]%elem_of_found.
      simpl. intros ->. congruence.
    + intros [id1 s1] [id2 s2] [? H1]%elem_of_found [? H2]%elem_of_found.
      simpl. intros ->. f_equal. by eapply Hinj.
Qed.

Lemma reconcile_order_witness :
  let X := JsString.lit "X" in
  let Y := JsString.lit "Y" in
  let Z := JsString.lit "Z" in
  (matched (reconcile [X; Z; Y; X] [(Y, 7%Z); (X, 3%Z)])).*2 = [X; Y].
Proof.
  intros X Y Z.
  rewrite (proj2 (proj2 (proj2
             (reconcile_order [X; Z; Y; X] [(Y, 7%Z); (X, 3%Z)])))).
  - reflexivity.
  - intros s1 s2 id H1 H2.
    repeat (apply elem_of_cons in H1 as [->|H1]);
      [| | | |by apply elem_of_nil in H1];
      repeat (apply elem_of_cons in H2 as [->|H2]);
      try (by apply elem_of_nil in H2);
      vm_compute; congruence.
Defined.

(** C4 as stated fails when two distinct input serials belong to one
    device: the later serial takes over the entry of the earlier one, so
    a found serial is missing from matched and the others are not in
    input order. *)
Lemma reconcile_order_broken :
  let A := JsString.lit "A" in
  let B := JsString.lit "B" in
  let C := JsString.lit "C" in
  let serials := [A; C; B] in
  let r := reconcile serials [(A, 1%Z); (C, 2%Z); (B, 1%Z)] in
  unmatched r = []
  ∧ matched r = [(1%Z, B); (2%Z, C)]
  ∧ (A ∉ (matched r).*2)
  ∧ ¬ sublist ((matched r).*2) serials.
Proof.
  vm_compute. split_and!; [done | done | |].
  - intros H. repeat (apply elem_of_cons in H as [H|H]; [done|]).
    by apply elem_of_nil in H.
  - intros H.
    repeat match goal with
           | H : sublist _ _ |- _ => inversion H; clear H; subst
           end.
Qed.

(** ** The input loader *)

Section loader_facts.
Import JsString.
Implicit Types (s : JsString.t) (c : N).

Lemma trimStart_split s :
  ∃ pre, s = pre ++ trimStart s ∧ blank pre.
Proof.
  induction s as [|c s (pre & Hs & Hpre)].
  { exists []. split; [done | constructor]. }
  simpl. destruct (isWhiteSpace c) eqn:Hc.
  - exists (c :: pre). split; [simpl; by f_equal | by constructor].
  - exists []. split; [done | constructor].
Qed.

Lemma trimStart_head s c :
  head (trimStart s) = Some c → isWhiteSpace c = false.
Proof.
  induction s as [|c' s IH]; [done|]. simpl.
  destruct (isWhiteSpace c') eqn:Hc; [done|]. simpl. congruence.
Qed.

Lemma trimStart_fixed s :
  (∀ c, head s = Some c → isWhiteSpace c = false) → trimStart s = s.
Proof.
  destruct s as [|c s]; [done|]. intros Hc. simpl. by rewrite Hc.
Qed.

Lemma trimEnd_split s :
  ∃ post, s = trimEnd s ++ post ∧ blank post.
Proof.
  unfold trimEnd. destruct (trimStart_split (reverse s)) as (pre & Hs & Hpre).
  exists (reverse pre). split.
  - rewrite <- reverse_app, <- Hs. by rewrite reverse_involutive.
  - by apply Forall_reverse.
Qed.

Lemma trimEnd_last s c :
  last (trimEnd s) = Some c → isWhiteSpace c = false.
Proof. unfold trimEnd. rewrite last_reverse. apply trimStart_head. Qed.

(** [trim] removes a blank prefix and a blank suffix and leaves a
    trimmed string. *)
Lemma trim_split s :
  ∃ pre post, s = pre ++ trim s ++ post ∧ blank pre ∧ blank post.
Proof.
  destruct (trimStart_split s) as (pre & Hs & Hpre).
  destruct (trimEnd_split (trimStart s)) as (post & Ht & Hpost).
  exists pre, post. unfold trim. by rewrite <- Ht.
Qed.

Lemma trim_trimmed s : trimmed (trim s).
Proof.
  split; [|apply trimEnd_last]. intros c Hc.
  destruct (trimEnd_split (trimStart s)) as (post & Ht & _).
  apply (trimStart_head s). unfold trim in Hc. rewrite Ht.
  destruct (trimEnd (trimStart s)); [done | exact Hc].
Qed.

Lemma trim_blank s : blank s → trim s = [].
Proof.
  intros Hs. assert (trimStart s = []) as Hstart.
  { induction Hs as [|c s Hc _ IH]; [done|]. simpl. by rewrite Hc. }
  unfold trim. by rewrite Hstart.
Qed.

Lemma split_LF_cons s : ∃ piece pieces, split_LF s = piece :: pieces.
Proof.
  induction s as [|c s (piece & pieces & IH)]; simpl; [by eauto|].
  destruct (c =? LF)%N; [by eauto|]. rewrite IH. eauto.
Qed.

Lemma split_LF_line s : LF ∉ s → split_LF s = [s].
Proof.
  induction s as [|c s IH]; [done|]. rewrite not_elem_of_cons.
  intros [Hc Hs]. simpl. rewrite IH by done.
  destruct (N.eqb_spec c LF); [congruence | done].
Qed.

Lemma split_LF_app s rest :
  LF ∉ s → split_LF (s ++ LF :: rest) = s :: split_LF rest.
Proof.
  induction s as [|c s IH]; [done|]. rewrite not_elem_of_cons.
  intros [Hc Hs]. simpl. rewrite IH by done.
  destruct (N.eqb_spec c LF); [congruence | done].
Qed.

(** A file of lines has one piece per line. *)
Lemma split_LF_join lines :
  lines ≠ [] → Forall (fun l => LF ∉ l) lines →
  split_LF (join_LF lines) = lines.
Proof.
  intros Hne Hlines. induction Hlines as [|l lines Hl Hlines IH]; [done|].
  destruct lines as [|l' lines]; [by apply split_LF_line|].
  cbn [join_LF]. rewrite split_LF_app by done. f_equal. by apply IH.
Qed.

(** One piece more than there are line feeds. *)
Lemma length_split_LF s :
  length (split_LF s) = S (length (filter (fun c => c = LF) s)).
Proof.
  induction s as [|c s IH]; [done|]. rewrite filter_cons. simpl.
  destruct (N.eqb_spec c LF) as [->|Hc].
  - rewrite decide_True by done. simpl. by rewrite IH.
  - rewrite decide_False by done. rewrite <- IH.
    by destruct (split_LF_cons s) as (piece & pieces & ->).
Qed.

End loader_facts.

Section lookup_facts.
Implicit Types (inv : JsMap.t SerialNumber DeviceId).
Implicit Types (serials : list SerialNumber) (s : SerialNumber).

Lemma elem_of_unmatched inv serials s :
  s ∈ unmatched (reconcile serials inv)
  ↔ s ∈ serials ∧ JsMap.get inv s = None.
Proof. rewrite unmatched_reconcile, list_elem_of_filter. tauto. Qed.

Lemma elem_of_matched_keys inv serials id :
  id ∈ JsMap.keys (matched (reconcile serials inv))
  ↔ ∃ s, s ∈ serials ∧ JsMap.get inv s = Some id.
Proof.
  rewrite keys_matched, elem_of_nub, list_elem_of_fmap. split.
  - intros ([id' s] & -> & Hin). exists s. by apply elem_of_found.
  - intros (s & Hin). exists (id, s). split; [done|]. by apply elem_of_found.
Qed.

End lookup_facts.

(** C7, as the code has it. Every loaded serial is a line of the file
    trimmed of the white space around it; every line gives one entry, an
    empty or blank line the empty string. An empty entry is then looked up
    like any other serial: it lands in unmatched exactly when no device of
    the inventory has the empty service tag, and otherwise it is entered
    in matched under the id of that device. *)
Theorem loaded_serials_and_empty_entries
    (data : JsString.t) (inv : JsMap.t SerialNumber DeviceId) :
  let serials := readFileAndParseToArray (Some data) in
  let r := reconcile serials inv in
  Forall trimmed serials
  ∧ length serials = S (length (filter (fun c => c = JsString.LF) data))
  ∧ (∀ lines, lines ≠ [] → Forall (fun l => JsString.LF ∉ l) lines →
       data = JsString.join_LF lines → serials = JsString.trim <$> lines)
  ∧ (∀ l, blank l → JsString.trim l = [])
  ∧ ([] ∈ unmatched r ↔ [] ∈ serials ∧ JsMap.get inv [] = None)
  ∧ (∀ id, [] ∈ serials → JsMap.get inv [] = Some id →
       ([] ∉ unmatched r) ∧ id ∈ JsMap.keys (matched r)).
Proof.
  intros serials r. subst serials r. unfold readFileAndParseToArray.
  split_and!.
  - apply Forall_forall. intros e (l & -> & _)%list_elem_of_fmap.
    apply trim_trimmed.
  - rewrite length_map. apply length_split_LF.
  - intros lines Hne Hlines ->. by rewrite split_LF_join.
  - apply trim_blank.
  - apply elem_of_unmatched.
  - intros id Hin Hid. split.
    + rewrite elem_of_unmatched. intros [_ Hnone]. congruence.
    + apply elem_of_matched_keys. by exists [].
Qed.

Lemma loaded_serials_and_empty_entries_witness :
  let LF := JsString.LF in
  let data := JsString.lit " A" ++ [LF; LF] ++ JsString.lit "B " in
  let serials := readFileAndParseToArray (Some data) in
  serials = [JsString.lit "A"; []; JsString.lit "B"]
  ∧ 7%Z ∈ JsMap.keys (matched (reconcile serials [([], 7%Z)])).
Proof.
  intros LF data serials.
  pose proof (loaded_serials_and_empty_entries data [([], 7%Z)])
    as (_ & _ & Hlines & _ & _ & Hempty).
  assert (serials = [JsString.lit "A"; []; JsString.lit "B"]) as Hs.
  { apply (Hlines [JsString.lit " A"; []; JsString.lit "B "]).
    - done.
    - repeat constructor; vm_compute; intros H;
        repeat (apply elem_of_cons in H as [H|H]; [done|]);
        by apply elem_of_nil in H.
    - reflexivity. }
  split; [exact Hs|].
  apply Hempty; [|reflexivity].
  fold serials. rewrite Hs. right. left.
Defined.

(** C7 as stated fails when a device of the inventory reports an empty
    service tag: the empty entry coming from the last line of the file is
    written to the matched file and not to the unmatched one. *)
Lemma empty_serial_is_matched :
  let A := JsString.lit "A" in
  let w := {| csv := Some (A ++ [JsString.LF]);
              requested := Some (JsString.lit "T");
              reports :=
                [FetchObject
                   (Some [(JsString.lit "0",
                           {| hostId := 7; serviceTag := [] |})])
                   None] |} in
  let serials := readFileAndParseToArray (csv w) in
  let r := reconcile serials [([], 7%Z)] in
  serials = [A; []]
  ∧ (7%Z, []) ∈ matched r
  ∧ ([] ∉ unmatched r)
  ∧ written (main w)
    = [InventoryObtenido_csv [([], 7%Z)];
       Inventory_csv [(7%Z, [])];
       InventoryNotFound_csv [A]].
Proof.
  vm_compute. split_and!; [done | by left | | done].
  intros H. apply elem_of_cons in H as [H|H]; [done|].
  by apply elem_of_nil in H.
Qed.

(** ** The pagination loop *)

Section paginate_facts.
Implicit Types (inv : JsMap.t SerialNumber DeviceId).
Implicit Types (answers rest : list Fetched) (log : list ReportToken).
Implicit Types (tok : ReportToken) (pages : list Page).

Lemma truthy_Some tok : tok ≠ [] → JsString.truthy (Some tok) = Some tok.
Proof. by destruct tok. Qed.

(** A falsy token ends the loop with no call. *)
Lemma paginate_falsy answers next inv log :
  JsString.truthy next = None →
  paginate answers next inv log = Exhausted inv log answers.
Proof. intros Hnext. destruct answers; simpl; by rewrite Hnext. Qed.

(** One iteration, by the kind of answer. *)
Lemma paginate_failed answers tok inv log report :
  tok ≠ [] → report = FetchNull ∨ report = FetchNotObject →
  paginate (report :: answers) (Some tok) inv log
  = Exhausted inv (log ++ [tok]) answers.
Proof.
  intros Htok Hreport. cbn [paginate]. rewrite truthy_Some by done.
  destruct Hreport as [-> | ->]; by apply paginate_falsy.
Qed.

Lemma paginate_object answers tok inv log hosts next :
  tok ≠ [] →
  paginate (FetchObject (Some hosts) next :: answers) (Some tok) inv log
  = paginate answers next (absorb inv hosts) (log ++ [tok]).
Proof. intros Htok. cbn [paginate]. by rewrite truthy_Some. Qed.

Lemma paginate_no_hosts answers tok inv log next :
  tok ≠ [] →
  paginate (FetchObject None next :: answers) (Some tok) inv log
  = Threw (log ++ [tok]).
Proof. intros Htok. cbn [paginate]. by rewrite truthy_Some. Qed.

(** A chain of pages is read page by page: one call each, with the token
    the page before produced. *)
Lemma paginate_served pages rest tok inv log :
  tok ≠ [] → Forall (fun p => page_next p ≠ []) pages →
  paginate ((served <$> pages) ++ rest) (Some tok) inv log
  = paginate rest (Some (handed tok pages)) (absorb_pages inv pages)
      (log ++ requests tok pages).
Proof.
  intros Htok Hpages. revert tok inv log Htok.
  induction Hpages as [|p pages Hp _ IH]; intros tok inv log Htok.
  - simpl. by rewrite app_nil_r.
  - rewrite fmap_cons. cbn [app requests handed]. unfold served at 1.
    rewrite paginate_object by done. rewrite IH by done.
    by rewrite <- app_assoc.
Qed.

Lemma handed_nonempty pages tok :
  tok ≠ [] → Forall (fun p => page_next p ≠ []) pages →
  handed tok pages ≠ [].
Proof.
  intros Htok Hpages. revert tok Htok.
  induction Hpages as [|p pages Hp _ IH]; intros tok Htok; [done|].
  by apply IH.
Qed.

(** The calls made for a chain and one more page: the first token, then
    the token of every page of the chain. *)
Lemma requests_handed pages tok :
  requests tok pages ++ [handed tok pages] = tok :: (page_next <$> pages).
Proof.
  revert tok. induction pages as [|p pages IH]; intros tok; [done|].
  cbn [requests handed]. rewrite fmap_cons. simpl. by rewrite IH.
Qed.

Lemma absorb_fill inv hosts :
  absorb inv hosts = fill (entry_of <$> hosts.*2) inv.
Proof.
  revert inv. induction hosts as [|[key row] hosts IH]; intros inv; [done|].
  cbn [absorb fold_left]. apply IH.
Qed.

Lemma fill_app {K V} `{EqDecision K} (es1 es2 : list (K * V)) m :
  fill (es1 ++ es2) m = fill es2 (fill es1 m).
Proof. unfold fill. apply fold_left_app. Qed.

(** When the loop exits, it has read a prefix of the answers, one per
    call, and the map holds the rows of that prefix, set in order. *)
Lemma paginate_exhausted answers next inv log inv' log' rest :
  paginate answers next inv log = Exhausted inv' log' rest →
  ∃ consumed,
    answers = consumed ++ rest
    ∧ length log' = length log + length consumed
    ∧ inv' = fill (entry_of <$> concat (rows_of <$> consumed)) inv.
Proof.
  revert next inv log.
  induction answers as [|report answers IH]; intros next inv log; simpl.
  - destruct (JsString.truthy next); [done|]. intros [= <- <- <-].
    exists []. split_and!; [done | simpl; lia | done].
  - destruct (JsString.truthy next) as [tok|].
    2:{ intros [= <- <- <-]. exists []. split_and!; [done | simpl; lia | done]. }
    destruct report as [| |[hosts|] next']; [..|done].
    + intros (consumed & -> & Hlen & ->)%IH. exists (FetchNull :: consumed).
      rewrite length_app in Hlen. simpl in *. split_and!; [done | lia | done].
    + intros (consumed & -> & Hlen & ->)%IH.
      exists (FetchNotObject :: consumed).
      rewrite length_app in Hlen. simpl in *. split_and!; [done | lia | done].
    + intros (consumed & -> & Hlen & ->)%IH.
      exists (FetchObject (Some hosts) next' :: consumed).
      rewrite length_app in Hlen. simpl in *. split_and!; [done | lia |].
      by rewrite fmap_app, fill_app, absorb_fill.
Qed.

(** The id under a serial is the one of the last row reporting it. *)
Lemma fill_rows_get (rows : list HostRow) s :
  JsMap.get (fill (entry_of <$> rows) JsMap.empty) s
  = hostId <$> last (filter (fun r => serviceTag r = s) rows).
Proof.
  induction rows as [|r rows IH] using rev_ind; [done|].
  rewrite fmap_app, fill_app. cbn [fmap list_fmap fill fold_left].
  rewrite jsmap_get_set, filter_app, filter_cons, filter_nil.
  unfold entry_of at 1 2. cbn [fst snd].
  destruct (decide (s = serviceTag r)) as [->|Hne].
  - rewrite decide_True by done. by rewrite last_snoc.
  - rewrite decide_False by congruence. by rewrite app_nil_r.
Qed.

End paginate_facts.

(** ** The pipeline *)

(** What [main] does once it holds a token and the loop exits. *)
Lemma main_finished csv0 tok answers inv log rest :
  tok ≠ [] →
  paginate answers (Some tok) JsMap.empty [] = Exhausted inv log rest →
  main {| csv := csv0; requested := Some tok; reports := answers |}
  = let r := reconcile (readFileAndParseToArray csv0) inv in
    {| ending := Finished;
       fetched := log;
       written := [InventoryObtenido_csv inv;
                   Inventory_csv (matched r);
                   InventoryNotFound_csv (unmatched r)] |}.
Proof.
  intros Htok Hloop. unfold main. cbn [requested reports csv].
  rewrite truthy_Some by done. by rewrite Hloop.
Qed.

(** C2, as the code has it. When, after a chain of pages, a fetch comes
    back null (the request failed) or with something that is not an
    object, the loop exits after that call, and the pipeline goes on with
    the inventory accumulated from the pages before: it writes the three
    files from it. *)
Theorem pagination_stops_on_failed_fetch
    (csv0 : option JsString.t) (tok : ReportToken) (pages : list Page)
    (failed : Fetched) (rest : list Fetched) :
  tok ≠ [] →
  Forall (fun p => page_next p ≠ []) pages →
  failed = FetchNull ∨ failed = FetchNotObject →
  let answers := (served <$> pages) ++ failed :: rest in
  let inv := absorb_pages JsMap.empty pages in
  let r := reconcile (readFileAndParseToArray csv0) inv in
  paginate answers (Some tok) JsMap.empty []
  = Exhausted inv (tok :: (page_next <$> pages)) rest
  ∧ main {| csv := csv0; requested := Some tok; reports := answers |}
    = {| ending := Finished;
         fetched := tok :: (page_next <$> pages);
         written := [InventoryObtenido_csv inv;
                     Inventory_csv (matched r);
                     InventoryNotFound_csv (unmatched r)] |}.
Proof.
  intros Htok Hpages Hfailed answers inv r.
  assert (paginate answers (Some tok) JsMap.empty []
          = Exhausted inv (tok :: (page_next <$> pages)) rest) as Hloop.
  { subst answers. rewrite paginate_served by done.
    rewrite paginate_failed;
      [by rewrite app_nil_l, requests_handed
      | by apply handed_nonempty | done]. }
  split; [done|]. by rewrite (main_finished _ _ _ _ _ _ Htok Hloop).
Qed.

Lemma pagination_stops_on_failed_fetch_witness :
  let T1 := JsString.lit "T1" in
  let T2 := JsString.lit "T2" in
  let A := JsString.lit "A" in
  let page := {| page_hosts := [(JsString.lit "0",
                                 {| hostId := 42; serviceTag := A |})];
                 page_next := T2 |} in
  main {| csv := Some A; requested := Some T1;
          reports := [served page; FetchNull] |}
  = {| ending := Finished;
       fetched := [T1; T2];
       written := [InventoryObtenido_csv [(A, 42%Z)];
                   Inventory_csv [(42%Z, A)];
                   InventoryNotFound_csv []] |}.
Proof.
  intros T1 T2 A page.
  refine (proj2 (pagination_stops_on_failed_fetch
                   (Some A) T1 [page] FetchNull [] _ _ _)).
  - by cbv.
  - repeat constructor. by cbv.
  - by left.
Defined.

(** C2 as stated fails for a page object that lacks its records: reading
    the keys of the absent [hosts] raises, the outer handler ends the run,
    and no file is written from what the pages before had given. *)
Lemma absent_hosts_ends_the_run :
  let T1 := JsString.lit "T1" in
  let T2 := JsString.lit "T2" in
  let A := JsString.lit "A" in
  let page := {| page_hosts := [(JsString.lit "0",
                                 {| hostId := 42; serviceTag := A |})];
                 page_next := T2 |} in
  main {| csv := Some A; requested := Some T1;
          reports := [served page; FetchObject None None] |}
  = {| ending := Caught; fetched := [T1; T2]; written := [] |}.
Proof. reflexivity. Qed.

(** C3, as the code has it. For a chain of pages whose k-th page is the
    first with a next token that is null or empty, every fetch
    succeeding, the loop makes exactly k calls and exits: the first with
    the token of the report request, each later one with the token the
    page before produced, and no answer beyond the k-th is asked for. *)
Theorem pagination_fetches_each_page_once
    (tok : ReportToken) (pages : list Page)
    (hosts : list (JsString.t * HostRow)) (next : option ReportToken)
    (rest : list Fetched) :
  tok ≠ [] →
  Forall (fun p => page_next p ≠ []) pages →
  JsString.truthy next = None →
  let k := S (length pages) in
  let fetches := tok :: (page_next <$> pages) in
  paginate ((served <$> pages) ++ FetchObject (Some hosts) next :: rest)
    (Some tok) JsMap.empty []
  = Exhausted (absorb (absorb_pages JsMap.empty pages) hosts) fetches rest
  ∧ length fetches = k.
Proof.
  intros Htok Hpages Hnext k fetches. split.
  - rewrite paginate_served by done.
    rewrite paginate_object by (by apply handed_nonempty).
    rewrite paginate_falsy by done. subst fetches.
    by rewrite app_nil_l, requests_handed.
  - subst fetches k. simpl. by rewrite length_fmap.
Qed.

Lemma pagination_fetches_each_page_once_witness :
  let T0 := JsString.lit "T0" in
  let T1 := JsString.lit "T1" in
  let A := JsString.lit "A" in
  let B := JsString.lit "B" in
  let row id tag := (JsString.lit "0", {| hostId := id; serviceTag := tag |}) in
  paginate [FetchObject (Some [row 1%Z A]) (Some T1);
            FetchObject (Some [row 2%Z B]) None]
    (Some T0) JsMap.empty []
  = Exhausted [(A, 1%Z); (B, 2%Z)] [T0; T1] [].
Proof.
  intros T0 T1 A B row.
  refine (proj1 (pagination_fetches_each_page_once T0
                   [{| page_hosts := [row 1%Z A]; page_next := T1 |}]
                   [row 2%Z B] None [] _ _ _)).
  - by cbv.
  - repeat constructor. by cbv.
  - reflexivity.
Defined.

(** C3 as stated fails on a chain whose first page hands out the empty
    string as next token and whose second page is the one with the null
    token: the loop makes one call, not two, and the second page is never
    asked for. *)
Lemma empty_token_cuts_the_chain :
  let T0 := JsString.lit "T0" in
  let chain := [FetchObject (Some []) (Some []);
                FetchObject (Some []) None] in
  paginate chain (Some T0) JsMap.empty []
  = Exhausted [] [T0] [FetchObject (Some []) None]
  ∧ length [T0] ≠ 2.
Proof. split; [reflexivity | simpl; lia]. Qed.

(** C5, as the code has it. When the report request yields no token, the
    pipeline returns at once: it fetches no page and writes no file, the
    inventory file included. *)
Theorem no_token_no_output (csv0 : option JsString.t)
    (answers : list Fetched) :
  main {| csv := csv0; requested := None; reports := answers |}
  = {| ending := NoToken; fetched := []; written := [] |}.
Proof. reflexivity. Qed.

(** C5 as stated fails: with no report token, no inventory file is
    produced, not even an empty one. *)
Lemma no_token_leaves_no_inventory_file :
  let run := main {| csv := Some (JsString.lit "ABC123");
                     requested := None; reports := [] |} in
  written run = []
  ∧ ¬ ∃ rows, InventoryObtenido_csv rows ∈ written run.
Proof.
  split; [reflexivity|]. intros [rows Hin]. by apply elem_of_nil in Hin.
Qed.

(** C6. When the loop exits, the inventory map binds every serial to the
    device id of the last row that reported it, over the rows of all the
    pages read, in the order read; a serial no row reported is unbound. *)
Theorem inventory_last_write_wins
    (answers : list Fetched) (next : option ReportToken)
    (inv : JsMap.t SerialNumber DeviceId) (log : list ReportToken)
    (rest : list Fetched) :
  paginate answers next JsMap.empty [] = Exhausted inv log rest →
  let records := concat (rows_of <$> take (length log) answers) in
  ∀ s, JsMap.get inv s
       = hostId <$> last (filter (fun r => serviceTag r = s) records).
Proof.
  intros (consumed & -> & Hlen & ->)%paginate_exhausted records s.
  subst records. simpl in Hlen. rewrite Hlen, take_app_length.
  apply fill_rows_get.
Qed.

Lemma inventory_last_write_wins_witness :
  let T0 := JsString.lit "T0" in
  let T1 := JsString.lit "T1" in
  let X := JsString.lit "X" in
  let row id := (JsString.lit "0", {| hostId := id; serviceTag := X |}) in
  let answers := [FetchObject (Some [row 1%Z; row 2%Z]) (Some T1);
                  FetchObject (Some [row 3%Z]) None] in
  paginate answers (Some T0) JsMap.empty [] = Exhausted [(X, 3%Z)] [T0; T1] []
  ∧ JsMap.get [(X, 3%Z)] X = Some 3%Z.
Proof.
  intros T0 T1 X row answers.
  assert (paginate answers (Some T0) JsMap.empty []
          = Exhausted [(X, 3%Z)] [T0; T1] []) as Hrun by reflexivity.
  split; [exact Hrun|].
  rewrite (inventory_last_write_wins answers (Some T0) _ _ _ Hrun X).
  reflexivity.
Defined.

(** C9. The empty string counts as no token. A report request that
    yields the empty string ends the pipeline as one that yields null
    does; and a page whose next token is the empty string ends the loop
    as a page whose next token is null does, with no further call. *)
Theorem empty_token_is_no_token :
  (∀ csv0 answers,
     main {| csv := csv0; requested := Some []; reports := answers |}
     = main {| csv := csv0; requested := None; reports := answers |})
  ∧ (∀ answers inv log,
       paginate answers (Some []) inv log = paginate answers None inv log)
  ∧ (∀ tok hosts rest inv log, tok ≠ [] →
       paginate (FetchObject (Some hosts) (Some []) :: rest)
         (Some tok) inv log
       = paginate (FetchObject (Some hosts) None :: rest) (Some tok) inv log
       ∧ paginate (FetchObject (Some hosts) (Some []) :: rest)
           (Some tok) inv log
         = Exhausted (absorb inv hosts) (log ++ [tok]) rest).
Proof.
  split_and!; [done | by intros [|? ?] | ].
  intros tok hosts rest inv log Htok.
  rewrite !paginate_object by done. by rewrite !paginate_falsy.
Qed.

Lemma empty_token_is_no_token_witness :
  let T0 := JsString.lit "T0" in
  let A := JsString.lit "A" in
  let hosts := [(JsString.lit "0", {| hostId := 1; serviceTag := A |})] in
  paginate [FetchObject (Some hosts) (Some []); FetchNull]
    (Some T0) JsMap.empty []
  = Exhausted [(A, 1%Z)] [T0] [FetchNull].
Proof.
  intros T0 A hosts.
  refine (proj2 (proj2 (proj2 empty_token_is_no_token)
                   T0 hosts [FetchNull] JsMap.empty [] _)).
  by cbv.
Defined.

(** ** Scenarios *)

Section scenarios.
Import JsString.

Example scenario_one_match :
  reconcile [lit "ABC123"; lit "ZZZ999"] [(lit "ABC123", 42%Z)]
  = {| inventoryMapFiltered := [(42%Z, lit "ABC123")];
       inventoryNotFound := [lit "ZZZ999"] |}.
Proof. reflexivity. Qed.

Example scenario_no_input inv :
  reconcile [] inv = {| inventoryMapFiltered := []; inventoryNotFound := [] |}.
Proof. reflexivity. Qed.

(** An unreadable CSV is an empty input: the inventory is still dumped. *)
Example scenario_unreadable_csv :
  main {| csv := None; requested := Some (lit "T0");
          reports :=
            [FetchObject
               (Some [(lit "0", {| hostId := 42; serviceTag := lit "ABC123" |})])
               None] |}
  = {| ending := Finished;
       fetched := [lit "T0"];
       written := [InventoryObtenido_csv [(lit "ABC123", 42%Z)];
                   Inventory_csv [];
                   InventoryNotFound_csv []] |}.
Proof. reflexivity. Qed.

(** Token "T1", then null: two calls, the rows of both pages merged. *)
Example scenario_two_pages :
  paginate
    [FetchObject (Some [(lit "0", {| hostId := 1; serviceTag := lit "A" |})])
       (Some (lit "T1"));
     FetchObject (Some [(lit "0", {| hostId := 2; serviceTag := lit "B" |})])
       None]
    (Some (lit "T0")) JsMap.empty []
  = Exhausted [(lit "A", 1%Z); (lit "B", 2%Z)] [lit "T0"; lit "T1"] [].
Proof. reflexivity. Qed.

(** A service that hands out a token with every page keeps the loop
    asking: it has not exited after any number of answers. *)
Lemma paginate_keeps_asking (n : nat) (p : Page) tok inv log :
  tok ≠ [] → page_next p ≠ [] →
  ∃ log', paginate (replicate n (served p)) (Some tok) inv log = Awaiting log'
          ∧ length log' = length log + n.
Proof.
  revert tok inv log. induction n as [|n IH]; intros tok inv log Htok Hp.
  - exists log. destruct tok; [done|]. split; [done | simpl; lia].
  - cbn [replicate]. unfold served at 1. rewrite paginate_object by done.
    destruct (IH (page_next p) (absorb inv (page_hosts p)) (log ++ [tok]) Hp Hp)
      as (log' & -> & Hlen).
    exists log'. split; [done|]. rewrite length_app in Hlen. simpl in Hlen. lia.
Qed.

End scenarios.

(** * Further properties *)

(** ** The input loader *)

Section loader_more.
Import JsString.
Implicit Types (s : JsString.t) (c : N).

Lemma split_LF_pieces s : Forall (fun piece => LF ∉ piece) (split_LF s).
Proof.
  induction s as [|c s IH]; simpl.
  - repeat constructor. apply not_elem_of_nil.
  - destruct (N.eqb_spec c LF) as [->|Hc].
    + constructor; [apply not_elem_of_nil | done].
    + destruct (split_LF s) as [|piece pieces]; [repeat constructor|].
      * rewrite not_elem_of_cons. split; [congruence | apply not_elem_of_nil].
      * apply Forall_cons in IH as [Hpiece Hpieces]. constructor; [|done].
        rewrite not_elem_of_cons. split; [congruence | done].
Qed.

Lemma trim_no_LF s : LF ∉ s → LF ∉ trim s.
Proof.
  destruct (trim_split s) as (pre & post & Hs & _). intros Hnot Hin.
  apply Hnot. rewrite Hs. rewrite !elem_of_app. tauto.
Qed.

Lemma trimStart_blank s : blank s → trimStart s = [].
Proof. induction 1 as [|c s Hc _ IH]; [done|]. simpl. by rewrite Hc. Qed.

(** A trimmed string is left as it is. *)
Lemma trim_fixed s : trimmed s → trim s = s.
Proof.
  intros [Hhead Hlast]. unfold trim, trimEnd.
  rewrite (trimStart_fixed s Hhead), trimStart_fixed.
  - apply reverse_involutive.
  - intros c. rewrite head_reverse. apply Hlast.
Qed.

(** White space after the text does not change what [trim] gives. *)
Lemma trim_app_blank s post : blank post → trim (s ++ post) = trim s.
Proof.
  intros Hpost. induction s as [|c s IH].
  - unfold trim. simpl. by rewrite trimStart_blank.
  - unfold trim in *. simpl. destruct (isWhiteSpace c) eqn:Hc; [done|].
    unfold trimEnd. f_equal. change (c :: s ++ post) with ((c :: s) ++ post).
    rewrite reverse_app.
    assert (blank (reverse post)) as Hrev by (by apply Forall_reverse).
    clear -Hrev. induction Hrev as [|c' post' Hc' _ IH]; [done|].
    simpl. by rewrite Hc'.
Qed.

Lemma loaded_nonempty data : readFileAndParseToArray (Some data) ≠ [].
Proof.
  simpl. by destruct (split_LF_cons data) as (piece & pieces & ->).
Qed.

Lemma loaded_no_LF data :
  Forall (fun serial => LF ∉ serial) (readFileAndParseToArray data).
Proof.
  destruct data as [data|]; simpl; [|constructor].
  apply Forall_fmap. eapply Forall_impl; [apply split_LF_pieces|].
  intros piece. apply trim_no_LF.
Qed.

Lemma loaded_trimmed data : Forall trimmed (readFileAndParseToArray data).
Proof.
  destruct data as [data|]; simpl; [|constructor].
  apply Forall_fmap, Forall_forall. intros piece _. apply trim_trimmed.
Qed.

(** Line by line, a file and its Windows form differ by a final
    carriage return at most. *)
Lemma split_LF_to_CRLF s :
  Forall2 (fun a b => a = b ∨ a = b ++ [CR])
    (split_LF (to_CRLF s)) (split_LF s).
Proof.
  induction s as [|c s IH]; simpl.
  - repeat constructor.
  - destruct (N.eqb_spec c LF) as [->|Hc]; simpl.
    + destruct (split_LF_cons (to_CRLF s)) as (piece & pieces & Hsplit).
      constructor; [by right | done].
    + destruct (N.eqb_spec c LF) as [|_]; [done|].
      destruct IH as [|a b pieces pieces' Hab IH]; [repeat constructor|].
      constructor; [|done]. destruct Hab as [->| ->]; [by left | by right].
Qed.

End loader_more.

(** X1. No loaded serial contains a line feed: whatever the file holds,
    each entry of the input sequence fits on one line. *)
Theorem loaded_serials_have_no_line_feed (data : option JsString.t) :
  Forall (fun serial => JsString.LF ∉ serial) (readFileAndParseToArray data).
Proof. apply loaded_no_LF. Qed.

(** X2. A file with Windows line endings loads as the same file with
    line feeds alone: the carriage returns are trimmed away. *)
Theorem loader_ignores_crlf (data : JsString.t) :
  readFileAndParseToArray (Some (to_CRLF data))
  = readFileAndParseToArray (Some data).
Proof.
  unfold readFileAndParseToArray.
  induction (split_LF_to_CRLF data) as [|a b l l' Hab _ IH]; [done|].
  cbn [List.map]. f_equal; [|exact IH]. destruct Hab as [->| ->]; [done|].
  apply trim_app_blank. by repeat constructor.
Qed.

(** X3. Loading is idempotent: the loaded serials, written one per line
    and loaded again, come back unchanged. *)
Theorem reload_loaded_serials (data : JsString.t) :
  let serials := readFileAndParseToArray (Some data) in
  readFileAndParseToArray (Some (JsString.join_LF serials)) = serials.
Proof.
  intros serials. unfold readFileAndParseToArray at 1.
  rewrite split_LF_join;
    [|apply loaded_nonempty | apply (loaded_no_LF (Some data))].
  change (List.map JsString.trim serials) with (JsString.trim <$> serials).
  pose proof (loaded_trimmed (Some data)) as Htrimmed. fold serials in Htrimmed.
  induction Htrimmed as [|s l Hs _ IH]; [done|].
  rewrite fmap_cons, IH. f_equal. by apply trim_fixed.
Qed.

(** ** The pagination loop, on any sequence of answers *)

Section paginate_more.
Implicit Types (inv : JsMap.t SerialNumber DeviceId).
Implicit Types (answers rest : list Fetched) (log : list ReportToken).
Implicit Types (tok : ReportToken) (next : option ReportToken).

Lemma truthy_inv next tok :
  JsString.truthy next = Some tok → next = Some tok ∧ tok ≠ [].
Proof. destruct next as [[|c s]|]; simpl; [done| |done]. by intros [= <-]. Qed.

(** The calls already made stay at the front of the log. *)
Lemma paginate_calls_prefix answers next inv log :
  log `prefix_of` calls_of (paginate answers next inv log).
Proof.
  revert next inv log.
  induction answers as [|report answers IH]; intros next inv log; simpl.
  - by destruct (JsString.truthy next).
  - destruct (JsString.truthy next) as [tok|]; [|done].
    assert (log `prefix_of` log ++ [tok]) as Hlog by (by apply prefix_app_r).
    destruct report as [| |[hosts|] next']; simpl;
      [by etrans; [|apply IH].. | done].
Qed.

(** Every call carries a non-empty token. *)
Lemma paginate_calls_nonempty answers next inv log :
  Forall (fun t => t ≠ []) log →
  Forall (fun t => t ≠ []) (calls_of (paginate answers next inv log)).
Proof.
  revert next inv log.
  induction answers as [|report answers IH]; intros next inv log Hlog; simpl.
  - by destruct (JsString.truthy next).
  - destruct (JsString.truthy next) as [tok|] eqn:Hnext; [|done].
    apply truthy_inv in Hnext as [_ Htok].
    assert (Forall (fun t => t ≠ []) (log ++ [tok])) as Hlog'.
    { apply Forall_app. split; [done | by repeat constructor]. }
    destruct report as [| |[hosts|] next']; simpl; [by apply IH.. | done].
Qed.

(** The call that follows the log is made with the token in hand, and
    each later call with the token of the page read just before it. *)
Lemma paginate_calls_chained answers next inv log :
  let calls := calls_of (paginate answers next inv log) in
  (∀ t, calls !! length log = Some t → next = Some t)
  ∧ (∀ i t, calls !! (length log + S i)%nat = Some t →
       ∃ hosts, answers !! i = Some (FetchObject (Some hosts) (Some t))).
Proof.
  revert next inv log.
  induction answers as [|report answers IH]; intros next inv log; simpl.
  - destruct (JsString.truthy next); simpl; split; intros *;
      rewrite lookup_ge_None_2; (done || lia).
  - destruct (JsString.truthy next) as [tok|] eqn:Hnext.
    2:{ simpl. split; intros *; rewrite lookup_ge_None_2; (done || lia). }
    apply truthy_inv in Hnext as [-> Htok].
    assert (∀ next' inv',
              calls_of (paginate answers next' inv' (log ++ [tok]))
                !! length log = Some tok) as Hhere.
    { intros next' inv'.
      destruct (paginate_calls_prefix answers next' inv' (log ++ [tok]))
        as [more ->].
      rewrite <- app_assoc. by apply list_lookup_middle. }
    assert (∀ next' inv' i t,
              calls_of (paginate answers next' inv' (log ++ [tok]))
                !! (length log + S i)%nat = Some t →
              match i with
              | O => next' = Some t
              | S j => ∃ hosts,
                  answers !! j = Some (FetchObject (Some hosts) (Some t))
              end) as Hlater.
    { intros next' inv' i t Hi.
      destruct (IH next' inv' (log ++ [tok])) as [IH0 IHS].
      rewrite length_app in IH0, IHS. simpl in IH0, IHS.
      destruct i as [|j].
      - by apply IH0.
      - apply IHS. by replace (length log + 1 + S j)%nat
                        with (length log + S (S j))%nat by lia. }
    destruct report as [| |[hosts|] next']; simpl.
    + split; [intros t; rewrite Hhere; congruence|].
      intros [|j] t Hi; apply Hlater in Hi; [done|].
      destruct Hi as [hosts Hj]. by exists hosts.
    + split; [intros t; rewrite Hhere; congruence|].
      intros [|j] t Hi; apply Hlater in Hi; [done|].
      destruct Hi as [hosts Hj]. by exists hosts.
    + split; [intros t; rewrite Hhere; congruence|].
      intros [|j] t Hi; apply Hlater in Hi.
      * subst next'. by exists hosts.
      * destruct Hi as [hosts' Hj]. by exists hosts'.
    + split.
      * intros t. rewrite list_lookup_middle by done. congruence.
      * intros i t. rewrite lookup_ge_None_2; [done|].
        rewrite length_app. simpl. lia.
Qed.

Lemma fill_empty_keys {K V} `{EqDecision K} (es : list (K * V)) :
  JsMap.keys (fill es JsMap.empty) = nub es.*1.
Proof.
  rewrite fill_keys. simpl. apply filter_all, Forall_forall.
  intros k _. apply not_elem_of_nil.
Qed.

(** What [main] logs as fetched is the log of its loop. *)
Lemma main_fetched (w : World) :
  fetched (main w) = []
  ∨ ∃ tok, requested w = Some tok ∧ tok ≠ []
           ∧ fetched (main w)
             = calls_of (paginate (reports w) (Some tok) JsMap.empty []).
Proof.
  unfold main. destruct (JsString.truthy (requested w)) as [tok|] eqn:Hreq;
    [|by left].
  apply truthy_inv in Hreq as [Hreq Htok]. right. exists tok.
  split_and!; [done | done |].
  by destruct (paginate _ _ _ _).
Qed.

End paginate_more.

(** X4. [getInventoryReport] is never called with an empty token,
    whatever the report request and the pages return. *)
Theorem fetched_tokens_nonempty (w : World) :
  Forall (fun t => t ≠ []) (fetched (main w)).
Proof.
  destruct (main_fetched w) as [-> | (tok & _ & _ & ->)]; [constructor|].
  apply paginate_calls_nonempty. constructor.
Qed.

(** X5. The tokens are chained, on every run: the first call is made with
    the token of the report request, and the call after the i-th answer
    with the next token of that answer, which is then a page object that
    has its rows. *)
Theorem fetched_tokens_are_chained (w : World) :
  (∀ t, fetched (main w) !! 0%nat = Some t → requested w = Some t)
  ∧ (∀ i t, fetched (main w) !! S i = Some t →
       ∃ hosts, reports w !! i = Some (FetchObject (Some hosts) (Some t))).
Proof.
  destruct (main_fetched w) as [-> | (tok & Hreq & _ & ->)]; [by split|].
  destruct (paginate_calls_chained (reports w) (Some tok) JsMap.empty [])
    as [H0 HS].
  split; [intros t Ht; rewrite Hreq; by apply H0 | exact HS].
Qed.

Lemma fetched_tokens_are_chained_witness :
  let T0 := JsString.lit "T0" in
  let T1 := JsString.lit "T1" in
  let w := {| csv := None; requested := Some T0;
              reports := [FetchObject (Some []) (Some T1); FetchNull;
                          FetchObject (Some []) None] |} in
  fetched (main w) = [T0; T1]
  ∧ ∃ hosts, reports w !! 0%nat = Some (FetchObject (Some hosts) (Some T1)).
Proof.
  intros T0 T1 w. split; [reflexivity|].
  apply (proj2 (fetched_tokens_are_chained w) 0%nat T1). reflexivity.
Defined.

(** X6. When the loop exits, the inventory map holds each reported
    service tag once, in the order in which the tags were first reported
    over the pages read; so does the inventory file. *)
Theorem inventory_rows_in_first_report_order
    (answers : list Fetched) (next : option ReportToken)
    (inv : JsMap.t SerialNumber DeviceId) (log : list ReportToken)
    (rest : list Fetched) :
  paginate answers next JsMap.empty [] = Exhausted inv log rest →
  let records := concat (rows_of <$> take (length log) answers) in
  JsMap.keys inv = nub (serviceTag <$> records) ∧ NoDup (JsMap.keys inv).
Proof.
  intros (consumed & -> & Hlen & ->)%paginate_exhausted records.
  subst records. simpl in Hlen. rewrite Hlen, take_app_length.
  split; [|apply fill_NoDup; constructor].
  rewrite fill_empty_keys. f_equal. rewrite <- list_fmap_compose.
  by apply list_fmap_ext.
Qed.

Lemma inventory_rows_in_first_report_order_witness :
  let T0 := JsString.lit "T0" in
  let T1 := JsString.lit "T1" in
  let X := JsString.lit "X" in
  let Y := JsString.lit "Y" in
  let row id tag :=
    (JsString.lit "0", {| hostId := id; serviceTag := tag |}) in
  let answers := [FetchObject (Some [row 1%Z X; row 2%Z Y]) (Some T1);
                  FetchObject (Some [row 3%Z X]) None] in
  paginate answers (Some T0) JsMap.empty []
  = Exhausted [(X, 3%Z); (Y, 2%Z)] [T0; T1] []
  ∧ JsMap.keys [(X, 3%Z); (Y, 2%Z)] = [X; Y].
Proof.
  intros T0 T1 X Y row answers.
  assert (paginate answers (Some T0) JsMap.empty []
          = Exhausted [(X, 3%Z); (Y, 2%Z)] [T0; T1] []) as Hrun by reflexivity.
  split; [exact Hrun|].
  rewrite (proj1 (inventory_rows_in_first_report_order
                    answers (Some T0) _ _ _ Hrun)).
  reflexivity.
Defined.

(** X7. A page object without its rows discards the whole run, however
    many pages were read before it: the exception reaches the handler of
    [main] and no file is written. *)
Theorem page_without_hosts_discards_run
    (csv0 : option JsString.t) (tok : ReportToken) (pages : list Page)
    (next : option ReportToken) (rest : list Fetched) :
  tok ≠ [] →
  Forall (fun p => page_next p ≠ []) pages →
  main {| csv := csv0; requested := Some tok;
          reports := (served <$> pages) ++ FetchObject None next :: rest |}
  = {| ending := Caught;
       fetched := tok :: (page_next <$> pages);
       written := [] |}.
Proof.
  intros Htok Hpages. unfold main. cbn [requested reports csv].
  rewrite truthy_Some by done. rewrite paginate_served by done.
  rewrite paginate_no_hosts by (by apply handed_nonempty).
  by rewrite app_nil_l, requests_handed.
Qed.

Lemma page_without_hosts_discards_run_witness :
  let T0 := JsString.lit "T0" in
  let T1 := JsString.lit "T1" in
  let page := {| page_hosts := []; page_next := T1 |} in
  main {| csv := None; requested := Some T0;
          reports := [served page; FetchObject None (Some T1)] |}
  = {| ending := Caught; fetched := [T0; T1]; written := [] |}.
Proof.
  intros T0 T1 page.
  refine (page_without_hosts_discards_run None T0 [page] (Some T1) [] _ _).
  - by cbv.
  - repeat constructor. by cbv.
Defined.

(** ** Reconciliation and the files written *)

Section reconcile_more.
Implicit Types (inv : JsMap.t SerialNumber DeviceId).
Implicit Types (serials : list SerialNumber) (s : SerialNumber).

Lemma matched_sound inv serials id s :
  (id, s) ∈ matched (reconcile serials inv) →
  s ∈ serials ∧ JsMap.get inv s = Some id.
Proof.
  intros Hin%elem_of_matched. apply last_Some_elem_of in Hin.
  apply list_elem_of_filter in Hin as [_ Hin]. by apply elem_of_found.
Qed.

Lemma found_app inv serials1 serials2 :
  found inv (serials1 ++ serials2) = found inv serials1 ++ found inv serials2.
Proof. unfold found. apply omap_app. Qed.

Lemma fill_keys_prefix {K V} `{EqDecision K} (es : list (K * V)) m :
  JsMap.keys m `prefix_of` JsMap.keys (fill es m).
Proof. rewrite fill_keys. by apply prefix_app_r. Qed.

Lemma reconcile_empty_inventory serials :
  reconcile serials JsMap.empty
  = {| inventoryMapFiltered := []; inventoryNotFound := serials |}.
Proof.
  unfold reconcile. rewrite visit_fold. simpl. f_equal.
  - unfold found. by induction serials.
  - apply filter_all, Forall_forall. done.
Qed.

(** The inventory map of a loop that exited has each tag once. *)
Lemma paginate_NoDup answers next inv log rest :
  paginate answers next JsMap.empty [] = Exhausted inv log rest →
  NoDup (JsMap.keys inv).
Proof.
  intros (consumed & _ & _ & ->)%paginate_exhausted.
  apply fill_NoDup. constructor.
Qed.

End reconcile_more.

(** X8. When the first fetch of the report fails, the run still ends
    normally: the inventory file and the matched file have no row, and
    every input serial is written to the unmatched file, in input
    order. *)
Theorem failed_first_fetch_reports_all_not_found
    (csv0 : option JsString.t) (tok : ReportToken) (failed : Fetched)
    (rest : list Fetched) :
  tok ≠ [] →
  failed = FetchNull ∨ failed = FetchNotObject →
  main {| csv := csv0; requested := Some tok; reports := failed :: rest |}
  = {| ending := Finished;
       fetched := [tok];
       written := [InventoryObtenido_csv [];
                   Inventory_csv [];
                   InventoryNotFound_csv (readFileAndParseToArray csv0)] |}.
Proof.
  intros Htok Hfailed.
  rewrite (main_finished csv0 tok (failed :: rest) JsMap.empty [tok] rest Htok).
  - by rewrite reconcile_empty_inventory.
  - by rewrite paginate_failed.
Qed.

Lemma failed_first_fetch_reports_all_not_found_witness :
  let A := JsString.lit "A" in
  let B := JsString.lit "B" in
  let T0 := JsString.lit "T0" in
  main {| csv := Some (A ++ JsString.LF :: B); requested := Some T0;
          reports := [FetchNull] |}
  = {| ending := Finished;
       fetched := [T0];
       written := [InventoryObtenido_csv [];
                   Inventory_csv [];
                   InventoryNotFound_csv [A; B]] |}.
Proof.
  intros A B T0.
  refine (failed_first_fetch_reports_all_not_found
            (Some (A ++ JsString.LF :: B)) T0 FetchNull [] _ _).
  - by cbv.
  - by left.
Defined.

(** X9. The two datasets are sound and disjoint: a matched entry pairs
    an input serial with the id the inventory gives it, an unmatched
    serial is an input serial the inventory lacks, and no serial is in
    both. *)
Theorem reconcile_sound
    (serials : list SerialNumber) (inv : JsMap.t SerialNumber DeviceId) :
  let r := reconcile serials inv in
  (∀ id s, (id, s) ∈ matched r → s ∈ serials ∧ JsMap.get inv s = Some id)
  ∧ (∀ s, s ∈ unmatched r → s ∈ serials ∧ JsMap.get inv s = None)
  ∧ (∀ s, s ∈ unmatched r → s ∉ (matched r).*2).
Proof.
  intros r. subst r. split_and!.
  - apply matched_sound.
  - intros s. by rewrite elem_of_unmatched.
  - intros s [_ Hnone]%elem_of_unmatched ([id s'] & -> & Hin)%list_elem_of_fmap.
    apply matched_sound in Hin as [_ Hsome]. simpl in Hnone. congruence.
Qed.

Lemma reconcile_sound_witness :
  let A := JsString.lit "A" in
  let B := JsString.lit "B" in
  JsMap.get [(A, 5%Z)] A = Some 5%Z ∧ (B ∉ [A]).
Proof.
  intros A B.
  pose proof (reconcile_sound [A; B] [(A, 5%Z)]) as (Hm & _ & Hdisj).
  split.
  - apply (Hm 5%Z A). left.
  - apply (Hdisj B). left.
Defined.

(** X10. No input serial is lost without a trace: each one is in the
    unmatched dataset, or the device the inventory gives it has an entry
    in the matched dataset, whose serial belongs to that same device. *)
Theorem every_serial_is_accounted_for
    (serials : list SerialNumber) (inv : JsMap.t SerialNumber DeviceId)
    (s : SerialNumber) :
  s ∈ serials →
  let r := reconcile serials inv in
  s ∈ unmatched r
  ∨ ∃ id s', JsMap.get inv s = Some id
             ∧ (id, s') ∈ matched r
             ∧ JsMap.get inv s' = Some id.
Proof.
  intros Hin r. subst r. destruct (JsMap.get inv s) as [id|] eqn:Hs.
  - right. exists id.
    assert (id ∈ JsMap.keys (matched (reconcile serials inv))) as Hid.
    { apply elem_of_matched_keys. by exists s. }
    apply list_elem_of_fmap in Hid as ([id' s'] & -> & Hentry).
    exists s'. split_and!; [done | done |].
    by apply matched_sound in Hentry as [_ ?].
  - left. by apply elem_of_unmatched.
Qed.

Lemma every_serial_is_accounted_for_witness :
  let A := JsString.lit "A" in
  let B := JsString.lit "B" in
  let r := reconcile [A; B] [(A, 1%Z); (B, 1%Z)] in
  A ∈ unmatched r
  ∨ ∃ id s', JsMap.get [(A, 1%Z); (B, 1%Z)] A = Some id
             ∧ (id, s') ∈ matched r
             ∧ JsMap.get [(A, 1%Z); (B, 1%Z)] s' = Some id.
Proof.
  intros A B.
  apply (every_serial_is_accounted_for [A; B] [(A, 1%Z); (B, 1%Z)] A).
  left.
Defined.

(** X11. Reconciling a longer input extends the result: the unmatched
    serials of the two parts follow one another, and the devices matched
    by the first part keep their places at the front of matched. *)
Theorem reconcile_app
    (serials1 serials2 : list SerialNumber)
    (inv : JsMap.t SerialNumber DeviceId) :
  unmatched (reconcile (serials1 ++ serials2) inv)
  = unmatched (reconcile serials1 inv) ++ unmatched (reconcile serials2 inv)
  ∧ JsMap.keys (matched (reconcile serials1 inv))
    `prefix_of` JsMap.keys (matched (reconcile (serials1 ++ serials2) inv)).
Proof.
  split.
  - rewrite !unmatched_reconcile. apply filter_app.
  - rewrite !matched_reconcile, found_app, fill_app. apply fill_keys_prefix.
Qed.

(** X12. The three files of a run agree with one another: every row of
    the matched file is a row of the inventory file with its fields
    swapped, no row of the unmatched file is a service tag of the
    inventory file, the inventory file has each service tag once, and
    the serials of the matched and unmatched files are input serials. *)
Theorem output_files_are_consistent (w : World)
    (inventory : list (SerialNumber * DeviceId))
    (matches : list (DeviceId * SerialNumber))
    (missing : list SerialNumber) :
  written (main w)
  = [InventoryObtenido_csv inventory; Inventory_csv matches;
     InventoryNotFound_csv missing] →
  (∀ id s, (id, s) ∈ matches → (s, id) ∈ inventory)
  ∧ (∀ s, s ∈ missing → s ∉ inventory.*1)
  ∧ NoDup inventory.*1
  ∧ (∀ s, s ∈ missing ∨ s ∈ matches.*2 →
       s ∈ readFileAndParseToArray (csv w)).
Proof.
  unfold main. destruct (JsString.truthy (requested w)) as [tok|]; [|done].
  destruct (paginate _ _ _ _) as [inv log rest| |] eqn:Hloop; [|done..].
  cbn [written]. intros [= <- <- <-].
  pose proof (paginate_NoDup _ _ _ _ _ Hloop) as Hnd.
  split_and!; [| |done|].
  - intros id s [_ Hget]%matched_sound. by apply jsmap_elem_of.
  - intros s [_ Hnone]%elem_of_unmatched. by apply jsmap_get_None.
  - intros s [[? _]%elem_of_unmatched | Hs]; [done|].
    apply list_elem_of_fmap in Hs as ([id s'] & -> & Hin).
    by apply matched_sound in Hin as [? _].
Qed.

Lemma output_files_are_consistent_witness :
  let A := JsString.lit "A" in
  let B := JsString.lit "B" in
  let w := {| csv := Some (A ++ JsString.LF :: B);
              requested := Some (JsString.lit "T0");
              reports :=
                [FetchObject
                   (Some [(JsString.lit "0",
                           {| hostId := 9; serviceTag := A |})])
                   None] |} in
  (A, 9%Z) ∈ [(A, 9%Z)] ∧ (B ∉ [A]).
Proof.
  intros A B w.
  pose proof (output_files_are_consistent w [(A, 9%Z)] [(9%Z, A)] [B] eq_refl)
    as (Hm & Hn & _ & _).
  split.
  - apply (Hm 9%Z A). left.
  - apply (Hn B). left.
Defined.

(** ** The text of the files *)

Section sink_facts.
Import JsString.
Implicit Types (s header : JsString.t) (lines : list JsString.t).















(** The lines of a text made of rows that hold no line feed: the
    header, the rows, and the empty piece after the last line feed. *)
Lemma split_LF_csvText header lines :
  LF ∉ header → Forall (fun l => LF ∉ l) lines →
  split_LF (csvText header lines) = header :: lines ++ [[]].
Proof.
  intros Hheader Hlines. unfold csvText. rewrite split_LF_app by done.
  f_equal. induction Hlines as [|l lines Hl _ IH]; [done|].
  rewrite fmap_cons. cbn [concat]. rewrite <- app_assoc. simpl.
  rewrite split_LF_app by done. by rewrite IH.
Qed.

Lemma lit_no_LF (str : string) :
  bool_decide (LF ∉ lit str) = true → LF ∉ lit str.
Proof. apply bool_decide_eq_true_1. Qed.




End sink_facts.

(** X13. The unmatched file can be loaded as an input file: it gives
    back its header, then the unmatched serials unchanged and in order,
    then one empty entry for the final line feed. *)
Theorem not_found_file_reloads
    (data : option JsString.t) (inv : JsMap.t SerialNumber DeviceId) :
  let missing := unmatched (reconcile (readFileAndParseToArray data) inv) in
  readFileAndParseToArray (Some (fileText (InventoryNotFound_csv missing)))
  = JsString.lit "serviceTag" :: missing ++ [[]].
Proof.
  intros missing.
  assert (Forall (fun s => (JsString.LF ∉ s) ∧ trimmed s) missing)
    as Hmissing.
  { apply Forall_forall. intros s [Hin _]%elem_of_unmatched. split.
    - by apply (proj1 (Forall_forall _ _) (loaded_no_LF data)).
    - by apply (proj1 (Forall_forall _ _) (loaded_trimmed data)). }
  unfold readFileAndParseToArray at 1. cbn [fileText].
  rewrite split_LF_csvText;
    [|by apply lit_no_LF | by eapply Forall_impl; [exact Hmissing|intros ? []]].
  cbn [List.map]. f_equal. rewrite List.map_app. f_equal.
  clear -Hmissing. induction Hmissing as [|s l [_ Hs] _ IH]; [done|].
  cbn [List.map]. by rewrite IH, trim_fixed.
Qed.





